(** * typit: runtime type descriptors and the malformed-object error

    A shallow embedding of the TypeScript sources

      - [runtime-types/union-type]     (class [UnionType]),
      - [runtime-types/optional-type]  (class [OptionalType]),
      - [runtime-types/enum-type]      (class [EnumType]),
      - [malformed-object-error]       (class [MalformedObjectError]),

    followed by the properties of their naming, conformity and
    path-prepending operations.

    JavaScript values are a tagged union whose numbers are IEEE floats (in
    the Standard Library's specification format), so that [===] is the
    language's strict equality; arrays that the code mutates live in an
    explicit store and are handled by reference, and an array handed in by a
    caller may have empty slots. *)

From Stdlib Require Import SpecFloat.
From stdpp Require Import gmap strings list.

(** ** JavaScript values and strict equality *)

(** Identity of a heap-allocated entity (object, array, symbol). *)
Definition ref := positive.

Inductive Value :=
  | VUndefined
  | VNull
  | VBoolean (b : bool)
  | VNumber (n : spec_float)
  | VBigInt (z : Z)
  | VString (s : string)
  | VSymbol (r : ref)
  | VObject (r : ref).

(** The [===] operator: primitives are compared by value (numbers with the
    IEEE comparison, so that NaN differs from itself and +0 equals -0),
    objects and symbols by identity, and values of different types are never
    equal. *)
Definition strict_equals (x y : Value) : bool :=
  match x, y with
  | VUndefined, VUndefined => true
  | VNull, VNull => true
  | VBoolean a, VBoolean b => Bool.eqb a b
  | VNumber a, VNumber b => SFeqb a b
  | VBigInt a, VBigInt b => Z.eqb a b
  | VString a, VString b => String.eqb a b
  | VSymbol a, VSymbol b => Pos.eqb a b
  | VObject a, VObject b => Pos.eqb a b
  | _, _ => false
  end.

(** The contents of the objects of a program state: own properties by name. *)
Definition Objects := gmap ref (gmap string Value).

(** ** Library methods the sources call *)

(** [Array.prototype.some]: the elements are tested in order and the scan
    stops at the first one that passes. *)
Fixpoint some {A : Type} (callback : A → bool) (array : list A) : bool :=
  match array with
  | [] => false
  | element :: rest => if callback element then true else some callback rest
  end.

(** An array as a caller may hand it in, slot by slot: [None] is an empty
    slot (a hole), as in [new Array(2)] or [[1, , 3]]. *)
Definition no_empty_slot {A : Type} (array : list (option A)) : Prop :=
  None ∉ array.

(** The elements that exist, in order: the methods of [Array.prototype]
    that take a callback, [some] among them, pass over empty slots. *)
Definition elements {A : Type} (array : list (option A)) : list A :=
  omap id array.

(** The values a [for...of] loop gets: the array iterator visits every index
    below the length and reads an empty slot as [undefined]. *)
Definition iterated (array : list (option Value)) : list Value :=
  map (default VUndefined) array.

(** [String.prototype.includes]: [search] occurs in [s] at some position. *)
Fixpoint includes (s search : string) : bool :=
  if String.prefix search s then true
  else match s with
       | EmptyString => false
       | String _ s' => includes s' search
       end.

(** [Array.prototype.join] on an array of strings. *)
Fixpoint join (separator : string) (items : list string) : string :=
  match items with
  | [] => ""
  | [item] => item
  | item :: rest => item +:+ separator +:+ join separator rest
  end.

(** ** The [Type] interface *)

(** Modelled from the spec: the interface [Type] (runtime-types/type) that
    every descriptor implements; its declaration is not among the sources.
    An implementer is the record of its four methods, already applied to the
    receiver; conformity checks are total, pure predicates on values. *)
Module Type_.
Record t := Build {
  getTypeName : string;
  checkConformity : Value → bool;
  exhaustivelyCheckConformity : Value → bool;
  isOptional : bool
}.
End Type_.

(** Modelled from the spec: the base class [AbstractType]
    (runtime-types/abstract-type), of which only the default optionality is
    needed here: a descriptor is not optional unless it overrides this. *)
Module AbstractType.
Definition isOptional : bool := false.
End AbstractType.

(** ** [UnionType] *)

Module UnionType.

Record t := Build {
  typeName : string;
  acceptableTypes : list Type_.t
}.

(** The loop of the constructor, from the name accumulated so far: a
    separator is added whenever that name is not the empty string. *)
Fixpoint nameLoop (typeName : string) (types : list Type_.t) : string :=
  match types with
  | [] => typeName
  | type :: rest =>
      let typeName :=
        if negb (String.eqb typeName "") then typeName +:+ " | "
        else typeName in
      nameLoop (typeName +:+ Type_.getTypeName type) rest
  end.

(** [new UnionType(...types)] *)
Definition new (types : list Type_.t) : t :=
  {| acceptableTypes := types; typeName := nameLoop "" types |}.

Definition getTypeName (this : t) : string := typeName this.

Definition checkConformity (this : t) (input : Value) : bool :=
  some (λ type, Type_.checkConformity type input) (acceptableTypes this).

(** The loop of [exhaustivelyCheckConformity] from the current value of
    the flag [once]; a second match leaves the loop with [false]. *)
Fixpoint exhaustiveLoop (once : bool) (types : list Type_.t)
    (input : Value) : bool :=
  match types with
  | [] => once
  | type :: rest =>
      if Type_.checkConformity type input then
        if once then false else exhaustiveLoop true rest input
      else exhaustiveLoop once rest input
  end.

Definition exhaustivelyCheckConformity (this : t) (input : Value) : bool :=
  exhaustiveLoop false (acceptableTypes this) input.

(** A [UnionType] seen through the [Type] interface. *)
Definition asType (this : t) : Type_.t :=
  {| Type_.getTypeName := getTypeName this;
     Type_.checkConformity := checkConformity this;
     Type_.exhaustivelyCheckConformity := exhaustivelyCheckConformity this;
     Type_.isOptional := AbstractType.isOptional |}.

End UnionType.

(** ** [OptionalType] *)

Module OptionalType.

Record t := Build {
  typeName : string;
  encapsulatedType : Type_.t
}.

(** [new OptionalType(type)] *)
Definition new (type : Type_.t) : t :=
  let encapsulatedTypeName := Type_.getTypeName type in
  let doesTypeNameHaveSpaces := includes encapsulatedTypeName " " in
  let encapsulatedTypeName :=
    if doesTypeNameHaveSpaces then "(" +:+ encapsulatedTypeName +:+ ")"
    else encapsulatedTypeName in
  {| encapsulatedType := type; typeName := encapsulatedTypeName +:+ "?" |}.

Definition isOptional (this : t) : bool := true.

Definition getTypeName (this : t) : string := typeName this.

Definition getEncapsulatedType (this : t) : Type_.t := encapsulatedType this.

Definition checkConformity (this : t) (input : Value) : bool :=
  Type_.checkConformity (getEncapsulatedType this) input.

Definition exhaustivelyCheckConformity (this : t) (input : Value) : bool :=
  Type_.exhaustivelyCheckConformity (getEncapsulatedType this) input.

Definition asType (this : t) : Type_.t :=
  {| Type_.getTypeName := getTypeName this;
     Type_.checkConformity := checkConformity this;
     Type_.exhaustivelyCheckConformity := exhaustivelyCheckConformity this;
     Type_.isOptional := isOptional this |}.

End OptionalType.

(** ** [EnumType] *)

Module EnumType.

(** [acceptableValues] is the caller's array as it stands when a check
    runs, empty slots included. *)
Record t := Build {
  typeName : string;
  acceptableValues : list (option Value)
}.

(** [new EnumType(acceptableValues, typeName?)] *)
Definition new (acceptableValues : list (option Value))
    (typeName : option string) : t :=
  {| acceptableValues := acceptableValues;
     typeName := match typeName with
                 | Some typeName => typeName
                 | None => "enum"
                 end |}.

Definition getTypeName (this : t) : string := typeName this.

(** The scan is [Array.prototype.some], over the elements that exist. *)
Definition checkConformity (this : t) (input : Value) : bool :=
  some (λ value, strict_equals value input) (elements (acceptableValues this)).

(** The loop of [exhaustivelyCheckConformity] over the values still to be
    iterated, from the current value of the flag [once]. *)
Fixpoint exhaustiveLoop (once : bool) (values : list Value)
    (input : Value) : bool :=
  match values with
  | [] => once
  | value :: rest =>
      if strict_equals value input then
        if once then false else exhaustiveLoop true rest input
      else exhaustiveLoop once rest input
  end.

(** The scan is a [for...of] loop, over every slot of the array. *)
Definition exhaustivelyCheckConformity (this : t) (input : Value) : bool :=
  exhaustiveLoop false (iterated (acceptableValues this)) input.

Definition asType (this : t) : Type_.t :=
  {| Type_.getTypeName := getTypeName this;
     Type_.checkConformity := checkConformity this;
     Type_.exhaustivelyCheckConformity := exhaustivelyCheckConformity this;
     Type_.isOptional := AbstractType.isOptional |}.

End EnumType.

(** ** Arrays of strings held by reference *)

(** The arrays of property names of a program state.  The computations
    below thread this store and fail only on a dangling reference. *)
Module Arrays.

Definition Store := gmap ref (list string).

Definition M (A : Type) : Type := Store → option (A * Store).

Definition ret {A} (a : A) : M A := λ σ, Some (a, σ).

Definition bind {A B} (m : M A) (k : A → M B) : M B :=
  λ σ, match m σ with
       | Some (a, σ') => k a σ'
       | None => None
       end.

(** A new array with the given elements, at a reference not yet in use. *)
Definition alloc (items : list string) : M ref :=
  λ σ, let r := fresh (dom σ) in Some (r, <[r := items]> σ).

(** The elements of an array, in order (iteration and spreading). *)
Definition read (r : ref) : M (list string) :=
  λ σ, match σ !! r with
       | Some items => Some (items, σ)
       | None => None
       end.

(** [array.push(...items)]: the array is extended in place. *)
Definition push (r : ref) (items : list string) : M unit :=
  λ σ, match σ !! r with
       | Some old => Some ((), <[r := old ++ items]> σ)
       | None => None
       end.

End Arrays.

Notation "x ←ₐ m ;; k" := (Arrays.bind m (λ x, k))
  (at level 100, m at next level, right associativity).

(** ** [MalformedObjectError] *)

Module MalformedObjectError.

Record t := Build {
  path : ref;
  readablePath : string;
  expectedType : Type_.t;
  actualType : Type_.t;
  actualValue : Value
}.

Section WithInferer.

(** [TypeInferer.infer], which is not among the sources: any total
    function from values to descriptors. *)
Variable infer : Value → Type_.t.

(** [new MalformedObjectError(path, expectedType, actualValue, actualType?)]:
    the record keeps the array it is given, and an omitted [actualType]
    is inferred from the value. *)
Definition new (path : ref) (expectedType : Type_.t) (actualValue : Value)
    (actualType : option Type_.t) : Arrays.M t :=
  pathItems ←ₐ Arrays.read path ;;
  Arrays.ret
    {| path := path;
       readablePath :=
         fold_left (λ readablePath pathItem, readablePath +:+ "." +:+ pathItem)
                   pathItems "*";
       expectedType := expectedType;
       actualType := match actualType with
                     | Some actualType => actualType
                     | None => infer actualValue
                     end;
       actualValue := actualValue |}.

(** [this.prependPath(...path)]: the rest parameter is a new array of
    the arguments, onto which the elements of [this.path] are pushed. *)
Definition prependPath (this : t) (segments : list string) : Arrays.M t :=
  path ←ₐ Arrays.alloc segments ;;
  thisPath ←ₐ Arrays.read (MalformedObjectError.path this) ;;
  _ ←ₐ Arrays.push path thisPath ;;
  new path (expectedType this) (actualValue this) None.

End WithInferer.

End MalformedObjectError.

(** ** Vocabulary of the properties *)

(** The number of entries of a list, counted by position, that pass a test. *)
Fixpoint count {A : Type} (test : A → bool) (l : list A) : nat :=
  match l with
  | [] => 0
  | x :: rest => (if test x then 1 else 0) + count test rest
  end.

(** The value [a] stands at two different positions of [l]. *)
Definition occurs_twice {A : Type} (a : A) (l : list A) : Prop :=
  ∃ l1 l2 l3, l = l1 ++ a :: l2 ++ a :: l3.

(** The string has a space among its characters. *)
Definition has_space (s : string) : Prop :=
  In Ascii.Space (String.list_ascii_of_string s).

(** Modelled from the spec: a leaf descriptor, an external implementer of
    the [Type] interface with a given name and value test; it has no notion
    of ambiguity, so both of its checks are that test. *)
Definition leaf (name : string) (accepts : Value → bool) : Type_.t :=
  {| Type_.getTypeName := name;
     Type_.checkConformity := accepts;
     Type_.exhaustivelyCheckConformity := accepts;
     Type_.isOptional := AbstractType.isOptional |}.

Definition isString (v : Value) : bool :=
  match v with VString _ => true | _ => false end.

Definition isUndefined (v : Value) : bool :=
  match v with VUndefined => true | _ => false end.

Definition anything (v : Value) : bool := true.

(** Modelled from the spec: descriptors of the external collaborators (leaf
    descriptors and the Value Inferer), used to run the code on concrete
    inputs. *)
Definition STRING : Type_.t := leaf "string" isString.
Definition UNDEFINED : Type_.t := leaf "undefined" isUndefined.
Definition VOID : Type_.t := leaf "void" isUndefined.
Definition ANY : Type_.t := leaf "any" anything.

Definition sampleInfer (v : Value) : Type_.t :=
  match v with
  | VUndefined => UNDEFINED
  | VString _ => STRING
  | _ => ANY
  end.

(** A state with the single array [["b"]], and the error that reports a
    missing string property at that path, its actual type given as [VOID]. *)
Definition sampleStore : Arrays.Store := {[ 1%positive := ["b"] ]}.

Definition sampleError : MalformedObjectError.t :=
  {| MalformedObjectError.path := 1%positive;
     MalformedObjectError.readablePath := "*.b";
     MalformedObjectError.expectedType := STRING;
     MalformedObjectError.actualType := VOID;
     MalformedObjectError.actualValue := VUndefined |}.

(** The names of a list that remain once the empty ones at its front are
    dropped. *)
Fixpoint dropLeadingEmpty (names : list string) : list string :=
  match names with
  | EmptyString :: rest => dropLeadingEmpty rest
  | _ => names
  end.

(** No two values at different positions are strictly equal. *)
Definition pairwise_distinct (values : list Value) : Prop :=
  ∀ i j v w, i ≠ j → values !! i = Some v → values !! j = Some w →
             strict_equals v w = false.

(** The enumeration of the single value [v], as a descriptor. *)
Definition singleValue (v : Value) : Type_.t :=
  EnumType.asType (EnumType.new [Some v] None).

(** The readable path of an error is the one its path array spells out in
    the given store: a star followed by the elements, separated by dots. *)
Definition consistent (σ : Arrays.Store) (e : MalformedObjectError.t) : Prop :=
  ∃ items, σ !! MalformedObjectError.path e = Some items ∧
           MalformedObjectError.readablePath e = join "." ("*" :: items).

(** ** The scanning loops *)

Section Scans.

Context {A : Type} (test : A → bool).

Lemma some_true_iff (l : list A) :
  some test l = true ↔ ∃ x, x ∈ l ∧ test x = true.
Proof.
  induction l as [|y l IH]; simpl.
  - split; [discriminate|]. intros (x & Hx & _). by apply elem_of_nil in Hx.
  - destruct (test y) eqn:Hy.
    + split; [|done]. intros _. exists y. split; [left|done].
    + rewrite IH. split.
      * intros (x & Hx & Ht). exists x. split; [by right|done].
      * intros (x & Hx & Ht). apply elem_of_cons in Hx as [->|Hx].
        -- congruence.
        -- by exists x.
Qed.

Lemma some_true_count (l : list A) :
  some test l = true ↔ 1 ≤ count test l.
Proof.
  induction l as [|y l IH]; simpl.
  - split; [discriminate|lia].
  - destruct (test y); [split; [lia|done]|]. by rewrite IH.
Qed.

Lemma count_app (l1 l2 : list A) :
  count test (l1 ++ l2) = count test l1 + count test l2.
Proof. induction l1 as [|y l1 IH]; simpl; [done|]. rewrite IH. lia. Qed.

Lemma occurs_twice_count (a : A) (l : list A) :
  test a = true → occurs_twice a l → 2 ≤ count test l.
Proof.
  intros Ha (l1 & l2 & l3 & ->).
  rewrite count_app. simpl. rewrite count_app. simpl. rewrite Ha. lia.
Qed.

End Scans.

(** The flag [once] of either exhaustive loop stands for one match already
    seen: the loop answers [true] exactly when that and the matches still to
    come add up to one. *)
Lemma union_exhaustiveLoop_count (input : Value) (types : list Type_.t) :
  ∀ once,
    UnionType.exhaustiveLoop once types input = true ↔
    Nat.b2n once + count (λ type, Type_.checkConformity type input) types = 1.
Proof.
  induction types as [|type rest IH]; intros once; simpl.
  - destruct once; simpl; split; (done || lia).
  - destruct (Type_.checkConformity type input).
    + destruct once; simpl; [split; [done|lia]|].
      rewrite IH. simpl. lia.
    + rewrite IH. lia.
Qed.

Lemma enum_exhaustiveLoop_count (input : Value) (values : list Value) :
  ∀ once,
    EnumType.exhaustiveLoop once values input = true ↔
    Nat.b2n once + count (λ value, strict_equals value input) values = 1.
Proof.
  induction values as [|value rest IH]; intros once; simpl.
  - destruct once; simpl; split; (done || lia).
  - destruct (strict_equals value input).
    + destruct once; simpl; [split; [done|lia]|].
      rewrite IH. simpl. lia.
    + rewrite IH. lia.
Qed.

(** ** Arrays with empty slots *)

Lemma elem_of_elements {A : Type} (array : list (option A)) (x : A) :
  x ∈ elements array ↔ Some x ∈ array.
Proof.
  unfold elements. rewrite list_elem_of_omap. split.
  - intros (slot & Hslot & Hid). unfold id in Hid. by subst.
  - intros Hx. by exists (Some x).
Qed.

Lemma elements_cons_Some {A : Type} (x : A) (array : list (option A)) :
  elements (Some x :: array) = x :: elements array.
Proof. reflexivity. Qed.

Lemma elements_cons_None {A : Type} (array : list (option A)) :
  elements (None :: array) = elements array.
Proof. reflexivity. Qed.

Lemma iterated_cons (slot : option Value) (array : list (option Value)) :
  iterated (slot :: array) = default VUndefined slot :: iterated array.
Proof. reflexivity. Qed.

Lemma elements_app {A : Type} (a1 a2 : list (option A)) :
  elements (a1 ++ a2) = elements a1 ++ elements a2.
Proof. apply omap_app. Qed.

Lemma iterated_app (a1 a2 : list (option Value)) :
  iterated (a1 ++ a2) = iterated a1 ++ iterated a2.
Proof. apply fmap_app. Qed.

Lemma elements_dense {A : Type} (values : list A) :
  elements (Some <$> values) = values.
Proof.
  induction values as [|v rest IH]; [done|].
  by rewrite fmap_cons, elements_cons_Some, IH.
Qed.

Lemma iterated_dense (values : list Value) :
  iterated (Some <$> values) = values.
Proof.
  induction values as [|v rest IH]; [done|].
  by rewrite fmap_cons, iterated_cons, IH.
Qed.

(** Without empty slots, a loop and a callback see the same values. *)
Lemma iterated_no_empty_slot (array : list (option Value)) :
  no_empty_slot array → iterated array = elements array.
Proof.
  unfold no_empty_slot.
  induction array as [|slot rest IH]; intros Hdense; [done|].
  destruct slot as [v|].
  - rewrite iterated_cons, elements_cons_Some, IH; [done|].
    intros Hin. apply Hdense. by right.
  - exfalso. apply Hdense. by left.
Qed.

(** A value that stands twice in the array is seen twice by both. *)
Lemma occurs_twice_slots (a : Value) (array : list (option Value)) :
  occurs_twice (Some a) array →
  occurs_twice a (elements array) ∧ occurs_twice a (iterated array).
Proof.
  intros (a1 & a2 & a3 & ->). split.
  - exists (elements a1), (elements a2), (elements a3).
    by rewrite elements_app, elements_cons_Some, elements_app,
      elements_cons_Some.
  - exists (iterated a1), (iterated a2), (iterated a3).
    by rewrite iterated_app, iterated_cons, iterated_app, iterated_cons.
Qed.

(** ** Strings *)

Lemma append_cons (c : Ascii.ascii) (s1 s2 : string) :
  String c s1 +:+ s2 = String c (s1 +:+ s2).
Proof. reflexivity. Qed.

Lemma append_assoc (s1 s2 s3 : string) :
  (s1 +:+ s2) +:+ s3 = s1 +:+ s2 +:+ s3.
Proof.
  induction s1 as [|c s1 IH]; [reflexivity|].
  by rewrite !append_cons, IH.
Qed.

Lemma append_empty_inv (s1 s2 : string) : s1 +:+ s2 = "" → s1 = "".
Proof. by destruct s1. Qed.

Lemma prefix_space (c : Ascii.ascii) (s : string) :
  String.prefix " " (String c s) = true ↔ Ascii.Space = c.
Proof.
  change (String.prefix " " (String c s))
    with (match Ascii.ascii_dec Ascii.Space c with
          | left _ => String.prefix "" s
          | right _ => false
          end).
  destruct (Ascii.ascii_dec Ascii.Space c) as [Hc|Hc].
  - split; [done|]. intros _. by destruct s.
  - split; [discriminate|done].
Qed.

(** Searching for the one-character string [" "] finds a space. *)
Lemma includes_space (s : string) : includes s " " = true ↔ has_space s.
Proof.
  unfold has_space. induction s as [|c s IH].
  - split; [discriminate|intros []].
  - change (includes (String c s) " ")
      with (if String.prefix " " (String c s) then true else includes s " ").
    change (String.list_ascii_of_string (String c s))
      with (c :: String.list_ascii_of_string s).
    destruct (String.prefix " " (String c s)) eqn:Hprefix.
    + apply prefix_space in Hprefix. split; [by left|done].
    + rewrite IH. split; [by right|]. intros [Hc|Hin]; [|done].
      symmetry in Hc. apply (proj2 (prefix_space c s)) in Hc. congruence.
Qed.

Lemma join_cons (separator item next : string) (rest : list string) :
  join separator (item :: next :: rest) =
  item +:+ separator +:+ join separator (next :: rest).
Proof. done. Qed.

(** Once the accumulated name is not empty, the constructor's loop joins. *)
Lemma nameLoop_join (types : list Type_.t) :
  ∀ typeName, typeName ≠ "" →
    UnionType.nameLoop typeName types =
    join " | " (typeName :: map Type_.getTypeName types).
Proof.
  induction types as [|type rest IH]; intros typeName Hne; [done|].
  simpl UnionType.nameLoop.
  apply String.eqb_neq in Hne as Hneb. rewrite Hneb. simpl negb. cbv iota.
  rewrite IH.
  - rewrite fmap_cons, join_cons.
    destruct rest as [|next rest]; simpl map.
    + simpl join. by rewrite append_assoc.
    + rewrite !join_cons. by rewrite !append_assoc.
  - intros Hempty. apply append_empty_inv in Hempty.
    by apply append_empty_inv in Hempty.
Qed.

(** A union whose first member has a name is named by joining the names. *)
Lemma union_name_join (types : list Type_.t) :
  match types with
  | [] => True
  | first :: _ => Type_.getTypeName first ≠ ""
  end →
  UnionType.getTypeName (UnionType.new types) =
  join " | " (map Type_.getTypeName types).
Proof.
  destruct types as [|first rest]; intros Hfirst; [done|].
  unfold UnionType.getTypeName, UnionType.new. simpl UnionType.typeName.
  simpl UnionType.nameLoop. by rewrite nameLoop_join.
Qed.

(** Members without a name that come first leave no trace in the name. *)
Lemma union_name_skips_unnamed (first : Type_.t) (rest : list Type_.t) :
  Type_.getTypeName first = "" →
  UnionType.getTypeName (UnionType.new (first :: rest)) =
  UnionType.getTypeName (UnionType.new rest).
Proof.
  intros Hfirst. unfold UnionType.getTypeName, UnionType.new. simpl.
  by rewrite Hfirst.
Qed.

(** ** The store under [prependPath] *)

Example sampleError_constructed :
  MalformedObjectError.new sampleInfer 1%positive STRING VUndefined (Some VOID)
    sampleStore = Some (sampleError, sampleStore).
Proof. reflexivity. Qed.

(** What [prependPath] does: it succeeds on every error whose path is an
    array of the store, the result's path is an array that did not exist
    before and holds the arguments followed by the elements of the old path,
    nothing else in the store changes, the expected type and the actual value
    are carried over, and the actual type is inferred anew. *)
Lemma prependPath_spec (infer : Value → Type_.t)
    (this : MalformedObjectError.t) (segments thisPath : list string)
    (σ : Arrays.Store) :
  σ !! MalformedObjectError.path this = Some thisPath →
  ∃ result,
    MalformedObjectError.prependPath infer this segments σ =
      Some (result,
            <[MalformedObjectError.path result := segments ++ thisPath]> σ) ∧
    (MalformedObjectError.path result ∉ dom σ) ∧
    MalformedObjectError.readablePath result =
      fold_left (λ readablePath pathItem, readablePath +:+ "." +:+ pathItem)
                (segments ++ thisPath) "*" ∧
    MalformedObjectError.expectedType result =
      MalformedObjectError.expectedType this ∧
    MalformedObjectError.actualValue result =
      MalformedObjectError.actualValue this ∧
    MalformedObjectError.actualType result =
      infer (MalformedObjectError.actualValue this).
Proof.
  intros Hpath.
  pose proof (is_fresh (dom σ)) as Hfresh.
  assert (fresh (dom σ) ≠ MalformedObjectError.path this) as Hne.
  { intros Heq. apply Hfresh. rewrite Heq. apply elem_of_dom. by eexists. }
  unfold MalformedObjectError.prependPath, MalformedObjectError.new,
    Arrays.bind, Arrays.alloc, Arrays.read, Arrays.push, Arrays.ret.
  unfold Arrays.Store in *. cbv zeta.
  rewrite lookup_insert_ne by done. rewrite Hpath.
  rewrite lookup_insert_eq. rewrite insert_insert_eq, lookup_insert_eq.
  eexists (MalformedObjectError.Build (fresh (dom σ)) _ _ _ _).
  split; [reflexivity|]. by simpl.
Qed.

(** The array of the original error is not touched, and the result's array
    is another one. *)
Lemma prependPath_frame (infer : Value → Type_.t)
    (this : MalformedObjectError.t) (segments thisPath : list string)
    (σ : Arrays.Store) :
  σ !! MalformedObjectError.path this = Some thisPath →
  ∃ result σ',
    MalformedObjectError.prependPath infer this segments σ = Some (result, σ') ∧
    MalformedObjectError.path result ≠ MalformedObjectError.path this ∧
    σ' !! MalformedObjectError.path result = Some (segments ++ thisPath) ∧
    σ' !! MalformedObjectError.path this = Some thisPath.
Proof.
  intros Hpath.
  destruct (prependPath_spec infer this segments thisPath σ Hpath)
    as (result & Hrun & Hnew & _).
  unfold Arrays.Store in *.
  assert (MalformedObjectError.path result ≠ MalformedObjectError.path this).
  { intros Heq. apply Hnew. rewrite Heq. apply elem_of_dom. by eexists. }
  exists result. eexists. split; [exact Hrun|]. split; [done|].
  split; [apply lookup_insert_eq|]. by rewrite lookup_insert_ne.
Qed.

(** An error whose actual type is the inferred one keeps it. *)
Lemma prependPath_keeps_inferred_actualType (infer : Value → Type_.t)
    (this : MalformedObjectError.t) (segments thisPath : list string)
    (σ : Arrays.Store) :
  σ !! MalformedObjectError.path this = Some thisPath →
  MalformedObjectError.actualType this =
    infer (MalformedObjectError.actualValue this) →
  ∃ result σ',
    MalformedObjectError.prependPath infer this segments σ = Some (result, σ') ∧
    MalformedObjectError.actualType result =
      MalformedObjectError.actualType this.
Proof.
  intros Hpath Hinferred.
  destruct (prependPath_spec infer this segments thisPath σ Hpath)
    as (result & Hrun & _ & _ & _ & _ & Hactual).
  exists result. eexists. split; [exact Hrun|]. congruence.
Qed.

(** ** Properties of [MalformedObjectError] *)

(** C1 (not met by the code).  [prependPath] returns a new record with the
    prepended path and leaves the original alone ([prependPath_spec],
    [prependPath_frame]), but it does not keep the actual type: the result's
    actual type is inferred from the actual value, so it differs from the
    original's whenever that one was given explicitly and is not the
    inferred one. *)
Theorem prependPath_loses_actualType (infer : Value → Type_.t)
    (this : MalformedObjectError.t) (segments thisPath : list string)
    (σ : Arrays.Store) :
  σ !! MalformedObjectError.path this = Some thisPath →
  MalformedObjectError.actualType this ≠
    infer (MalformedObjectError.actualValue this) →
  ∃ result σ',
    MalformedObjectError.prependPath infer this segments σ = Some (result, σ') ∧
    MalformedObjectError.actualType result =
      infer (MalformedObjectError.actualValue this) ∧
    MalformedObjectError.actualType result ≠
      MalformedObjectError.actualType this.
Proof.
  intros Hpath Hgiven.
  destruct (prependPath_spec infer this segments thisPath σ Hpath)
    as (result & Hrun & _ & _ & _ & _ & Hactual).
  exists result. eexists. split; [exact Hrun|]. split; [exact Hactual|].
  rewrite Hactual. congruence.
Qed.

(** The error for a missing property, reported with actual type [VOID],
    comes back from [prependPath("a")] with actual type [UNDEFINED]. *)
Lemma prependPath_loses_actualType_witness :
  ∃ result σ',
    MalformedObjectError.prependPath sampleInfer sampleError ["a"] sampleStore =
      Some (result, σ') ∧
    MalformedObjectError.actualType result = UNDEFINED ∧
    MalformedObjectError.actualType result ≠ VOID.
Proof.
  apply (prependPath_loses_actualType sampleInfer sampleError ["a"] ["b"]
           sampleStore).
  - reflexivity.
  - discriminate.
Defined.

(** ** Properties of [UnionType] *)

(** C2.  A union's exhaustive check answers [true] exactly when one member,
    counted by position, conforms; with two or more it answers [false]. *)
Theorem union_exhaustive_exactly_one (U : UnionType.t) (x : Value) :
  (UnionType.exhaustivelyCheckConformity U x = true ↔
   count (λ m, Type_.checkConformity m x) (UnionType.acceptableTypes U) = 1) ∧
  (2 ≤ count (λ m, Type_.checkConformity m x) (UnionType.acceptableTypes U) →
   UnionType.exhaustivelyCheckConformity U x = false).
Proof.
  unfold UnionType.exhaustivelyCheckConformity.
  pose proof (union_exhaustiveLoop_count x (UnionType.acceptableTypes U) false)
    as Hloop.
  simpl in Hloop. split; [exact Hloop|].
  intros Htwo.
  destruct (UnionType.exhaustiveLoop false (UnionType.acceptableTypes U) x);
    [|done].
  assert (count (λ m, Type_.checkConformity m x)
            (UnionType.acceptableTypes U) = 1) by by apply Hloop.
  lia.
Qed.

Lemma union_exhaustive_exactly_one_witness :
  UnionType.exhaustivelyCheckConformity
    (UnionType.new [STRING; ANY]) (VString "s") = false.
Proof.
  apply (proj2 (union_exhaustive_exactly_one
                  (UnionType.new [STRING; ANY]) (VString "s"))).
  simpl. lia.
Defined.

(** C5.  A union with at least one member accepts a value exactly when some
    member accepts it. *)
Theorem union_check_some_member (U : UnionType.t) (x : Value) :
  UnionType.acceptableTypes U ≠ [] →
  (UnionType.checkConformity U x = true ↔
   ∃ m, m ∈ UnionType.acceptableTypes U ∧ Type_.checkConformity m x = true).
Proof.
  intros _. unfold UnionType.checkConformity.
  apply (some_true_iff (λ type, Type_.checkConformity type x)).
Qed.

Lemma union_check_some_member_witness :
  UnionType.checkConformity (UnionType.new [STRING; ANY]) (VNull) = true ↔
  ∃ m, m ∈ [STRING; ANY] ∧ Type_.checkConformity m VNull = true.
Proof.
  apply (union_check_some_member (UnionType.new [STRING; ANY]) VNull).
  discriminate.
Defined.

(** C8 (not met by the code).  The name of a union is the join of its
    members' names when the first member has a name ([union_name_join]); the
    constructor adds the separator only when the name built so far is not
    empty, so members with an empty name at the front vanish from it, where a
    join would show their separators. *)
Theorem union_name_loses_leading_separator :
  let types := [EnumType.asType (EnumType.new [Some VNull] (Some ""));
                leaf "A" isString] in
  map Type_.getTypeName types = [""; "A"] ∧
  UnionType.getTypeName (UnionType.new types) = "A" ∧
  join " | " (map Type_.getTypeName types) = " | A" ∧
  UnionType.getTypeName (UnionType.new types) ≠
    join " | " (map Type_.getTypeName types).
Proof.
  cbv zeta. split; [reflexivity|]. split; [reflexivity|].
  split; [reflexivity|]. discriminate.
Qed.

(** C9.  The union without members accepts nothing, under either check. *)
Theorem empty_union_never_conforms (x : Value) :
  UnionType.checkConformity (UnionType.new []) x = false ∧
  UnionType.exhaustivelyCheckConformity (UnionType.new []) x = false.
Proof. split; reflexivity. Qed.

Example union_name_A_BC :
  UnionType.getTypeName
    (UnionType.new [leaf "A" isString; leaf "B C" isUndefined]) = "A | B C".
Proof. reflexivity. Qed.

(** ** Properties of [EnumType] *)

(** C6.  An enumeration accepts a value exactly when some entry of its list
    is strictly equal to it.  Objects are compared by identity: an object
    that is not itself an entry is rejected, and in particular so is an
    object whose contents are those of the only entry. *)
Theorem enum_check_strict_equality :
  (∀ (E : EnumType.t) (x : Value),
     EnumType.checkConformity E x = true ↔
     ∃ v, Some v ∈ EnumType.acceptableValues E ∧ strict_equals v x = true) ∧
  (∀ (E : EnumType.t) (r : ref),
     Some (VObject r) ∉ EnumType.acceptableValues E →
     EnumType.checkConformity E (VObject r) = false) ∧
  (∀ (objects : Objects) (r1 r2 : ref) (typeName : option string),
     r1 ≠ r2 → is_Some (objects !! r1) → objects !! r1 = objects !! r2 →
     EnumType.checkConformity (EnumType.new [Some (VObject r1)] typeName)
       (VObject r2) = false).
Proof.
  assert (∀ (E : EnumType.t) (x : Value),
            EnumType.checkConformity E x = true ↔
            ∃ v, Some v ∈ EnumType.acceptableValues E ∧
                 strict_equals v x = true)
    as Hcheck.
  { intros E x. unfold EnumType.checkConformity.
    rewrite (some_true_iff (λ value, strict_equals value x)).
    split; intros (v & Hv & Heq); exists v; split; try done;
      by apply elem_of_elements. }
  split; [exact Hcheck|]. split.
  - intros E r Hnot.
    destruct (EnumType.checkConformity E (VObject r)) eqn:Hc; [|done].
    apply Hcheck in Hc as (v & Hv & Heq).
    destruct v; try discriminate. simpl in Heq.
    apply Pos.eqb_eq in Heq as ->. done.
  - intros objects r1 r2 typeName Hne _ _.
    unfold EnumType.checkConformity, EnumType.new.
    cbn [EnumType.acceptableValues]. rewrite elements_cons_Some.
    cbn [elements omap list_omap some strict_equals].
    by apply Pos.eqb_neq in Hne as ->.
Qed.

Lemma enum_check_strict_equality_witness :
  EnumType.checkConformity (EnumType.new [Some (VObject 1%positive)] None)
    (VObject 2%positive) = false.
Proof.
  apply (proj2 (proj2 enum_check_strict_equality)
           ({[ 1%positive := {[ "k" := VString "v" ]};
               2%positive := {[ "k" := VString "v" ]} ]} : Objects)
           1%positive 2%positive None).
  - discriminate.
  - eexists. reflexivity.
  - reflexivity.
Defined.

(** C3 fails on the code as stated: NaN is not strictly equal to itself, so
    an enumeration that lists it twice rejects it under both checks. *)
Lemma enum_duplicate_NaN :
  let E := EnumType.new [Some (VNumber S754_nan); Some (VNumber S754_nan)]
             None in
  occurs_twice (Some (VNumber S754_nan)) (EnumType.acceptableValues E) ∧
  ¬ (EnumType.exhaustivelyCheckConformity E (VNumber S754_nan) = false ∧
     EnumType.checkConformity E (VNumber S754_nan) = true).
Proof.
  split.
  - by exists [], [], [].
  - intros [_ Hcheck]. discriminate Hcheck.
Qed.

(** The exhaustive check counts the values the loop is given, an empty slot
    counting as [undefined]. *)
Lemma enum_exhaustive_count (E : EnumType.t) (x : Value) :
  EnumType.exhaustivelyCheckConformity E x = true ↔
  count (λ v, strict_equals v x) (iterated (EnumType.acceptableValues E)) = 1.
Proof.
  apply (enum_exhaustiveLoop_count x
           (iterated (EnumType.acceptableValues E)) false).
Qed.

(** C3, amended.  A value that is strictly equal to itself and stands twice
    in the list fails the exhaustive check of the enumeration while it passes
    the plain one; and when the list has no empty slot, the exhaustive check
    answers [true] exactly when one entry of the list, counted by position,
    is strictly equal to the input. *)
Theorem enum_exhaustive_exactly_one (E : EnumType.t) :
  (∀ x : Value,
     no_empty_slot (EnumType.acceptableValues E) →
     (EnumType.exhaustivelyCheckConformity E x = true ↔
      count (λ v, strict_equals v x)
            (elements (EnumType.acceptableValues E)) = 1)) ∧
  (∀ a : Value,
     strict_equals a a = true →
     occurs_twice (Some a) (EnumType.acceptableValues E) →
     EnumType.exhaustivelyCheckConformity E a = false ∧
     EnumType.checkConformity E a = true).
Proof.
  split.
  - intros x Hdense. rewrite enum_exhaustive_count.
    by rewrite iterated_no_empty_slot.
  - intros a Hrefl Htwice.
    apply occurs_twice_slots in Htwice as [Helements Hiterated].
    apply (occurs_twice_count (λ v, strict_equals v a)) in Helements;
      [|exact Hrefl].
    apply (occurs_twice_count (λ v, strict_equals v a)) in Hiterated;
      [|exact Hrefl].
    split.
    + destruct (EnumType.exhaustivelyCheckConformity E a) eqn:He; [|done].
      apply enum_exhaustive_count in He. lia.
    + unfold EnumType.checkConformity.
      apply (some_true_count (λ v, strict_equals v a)). lia.
Qed.

Lemma enum_exhaustive_exactly_one_witness :
  (EnumType.exhaustivelyCheckConformity
     (EnumType.new [Some (VString "a"); Some (VString "a")] None)
     (VString "a") = false ∧
   EnumType.checkConformity
     (EnumType.new [Some (VString "a"); Some (VString "a")] None)
     (VString "a") = true) ∧
  (EnumType.exhaustivelyCheckConformity
     (EnumType.new [Some (VString "a"); Some (VString "a")] None)
     (VString "b") = true ↔
   count (λ v, strict_equals v (VString "b"))
         (elements [Some (VString "a"); Some (VString "a")]) = 1).
Proof.
  split.
  - apply (proj2 (enum_exhaustive_exactly_one
                    (EnumType.new [Some (VString "a"); Some (VString "a")]
                       None))
             (VString "a")).
    + reflexivity.
    + by exists [], [], [].
  - apply (proj1 (enum_exhaustive_exactly_one
                    (EnumType.new [Some (VString "a"); Some (VString "a")]
                       None))
             (VString "b")).
    unfold no_empty_slot. simpl. intros Hin.
    apply elem_of_cons in Hin as [Hin|Hin]; [discriminate|].
    apply elem_of_cons in Hin as [Hin|Hin]; [discriminate|].
    by apply elem_of_nil in Hin.
Defined.

(** ** Properties of [OptionalType] *)

(** C4.  Both checks of an optional descriptor are those of the descriptor
    it wraps, on every input, [undefined] included. *)
Theorem optional_delegates (T : Type_.t) (v : Value) :
  OptionalType.checkConformity (OptionalType.new T) v =
    Type_.checkConformity T v ∧
  OptionalType.exhaustivelyCheckConformity (OptionalType.new T) v =
    Type_.exhaustivelyCheckConformity T v ∧
  OptionalType.checkConformity (OptionalType.new T) VUndefined =
    Type_.checkConformity T VUndefined ∧
  OptionalType.exhaustivelyCheckConformity (OptionalType.new T) VUndefined =
    Type_.exhaustivelyCheckConformity T VUndefined.
Proof. repeat split. Qed.

Example optional_string_rejects_undefined :
  OptionalType.checkConformity (OptionalType.new STRING) VUndefined = false.
Proof. reflexivity. Qed.

(** C7.  The name of an optional descriptor is the wrapped descriptor's name
    followed by ["?"], with that name in parentheses exactly when it has a
    space; and the descriptor is optional. *)
Theorem optional_name_and_optionality (T : Type_.t) :
  (has_space (Type_.getTypeName T) →
   OptionalType.getTypeName (OptionalType.new T) =
     "(" +:+ Type_.getTypeName T +:+ ")?") ∧
  (¬ has_space (Type_.getTypeName T) →
   OptionalType.getTypeName (OptionalType.new T) =
     Type_.getTypeName T +:+ "?") ∧
  (Type_.getTypeName T = "A" →
   OptionalType.getTypeName (OptionalType.new T) = "A?") ∧
  (Type_.getTypeName T = "B C" →
   OptionalType.getTypeName (OptionalType.new T) = "(B C)?") ∧
  OptionalType.isOptional (OptionalType.new T) = true ∧
  Type_.isOptional (OptionalType.asType (OptionalType.new T)) = true.
Proof.
  unfold OptionalType.getTypeName, OptionalType.new.
  simpl OptionalType.typeName.
  split; [|split; [|split; [|split; [|split]]]]; try reflexivity.
  - intros Hspace. apply includes_space in Hspace. rewrite Hspace.
    by rewrite !append_assoc.
  - intros Hspace.
    destruct (includes (Type_.getTypeName T) " ") eqn:Hincludes; [|done].
    by apply includes_space in Hincludes.
  - by intros ->.
  - by intros ->.
Qed.

Lemma optional_name_and_optionality_witness :
  OptionalType.getTypeName (OptionalType.new (leaf "B C" anything)) =
    "(" +:+ "B C" +:+ ")?".
Proof.
  apply (proj1 (optional_name_and_optionality (leaf "B C" anything))).
  right. left. reflexivity.
Defined.

(** ** Exhaustive conformity against plain conformity *)

(** For a union, a value that passes the exhaustive check passes the plain
    check. *)
Lemma union_exhaustive_implies_check (U : UnionType.t) (x : Value) :
  UnionType.exhaustivelyCheckConformity U x = true →
  UnionType.checkConformity U x = true.
Proof.
  intros Hexhaustive.
  apply (union_exhaustiveLoop_count x _ false) in Hexhaustive.
  apply (some_true_count (λ type, Type_.checkConformity type x)).
  simpl in Hexhaustive. lia.
Qed.

(** So it does for an enumeration whose list has no empty slot. *)
Lemma enum_exhaustive_implies_check (E : EnumType.t) (x : Value) :
  no_empty_slot (EnumType.acceptableValues E) →
  EnumType.exhaustivelyCheckConformity E x = true →
  EnumType.checkConformity E x = true.
Proof.
  intros Hdense Hexhaustive.
  apply enum_exhaustive_count in Hexhaustive.
  rewrite iterated_no_empty_slot in Hexhaustive by done.
  unfold EnumType.checkConformity.
  apply (some_true_count (λ value, strict_equals value x)). lia.
Qed.

(** The converse fails for both. *)
Lemma check_without_exhaustive :
  (∃ (U : UnionType.t) (x : Value),
     UnionType.checkConformity U x = true ∧
     UnionType.exhaustivelyCheckConformity U x = false) ∧
  (∃ (E : EnumType.t) (x : Value),
     EnumType.checkConformity E x = true ∧
     EnumType.exhaustivelyCheckConformity E x = false).
Proof.
  split.
  - by exists (UnionType.new [STRING; ANY]), (VString "s").
  - by exists (EnumType.new [Some VNull; Some VNull] None), VNull.
Qed.

(** C10 (not met by the code).  For unions, and for enumerations over a list
    without empty slots, a value that passes the exhaustive check passes the
    plain check ([union_exhaustive_implies_check],
    [enum_exhaustive_implies_check]).  On a list with an empty slot the two
    scans of an enumeration part ways: the loop of the exhaustive check reads
    the slot as [undefined], the scan of the plain check passes over it; so
    the enumeration over [new Array(1)] accepts [undefined] exhaustively and
    rejects it plainly. *)
Theorem enum_empty_slot_exhaustive_without_check :
  let E := EnumType.new [None] None in
  EnumType.exhaustivelyCheckConformity E VUndefined = true ∧
  EnumType.checkConformity E VUndefined = false.
Proof. cbv zeta. split; reflexivity. Qed.

(** ** Further lemmas on strings and scans *)

Lemma join_merge (separator a b : string) (rest : list string) :
  join separator ((a +:+ separator +:+ b) :: rest) =
  join separator (a :: b :: rest).
Proof.
  rewrite (join_cons separator a b rest).
  destruct rest as [|next rest]; [done|].
  rewrite !join_cons. by rewrite !append_assoc.
Qed.

Lemma list_ascii_append (s1 s2 : string) :
  String.list_ascii_of_string (s1 +:+ s2) =
  String.list_ascii_of_string s1 ++ String.list_ascii_of_string s2.
Proof.
  induction s1 as [|c s1 IH]; [done|].
  rewrite append_cons. simpl. by rewrite IH.
Qed.

Lemma has_space_append (s1 s2 : string) :
  has_space (s1 +:+ s2) ↔ has_space s1 ∨ has_space s2.
Proof. unfold has_space. rewrite list_ascii_append. apply in_app_iff. Qed.

Lemma append_cancel_r (s1 s2 suffix : string) :
  s1 +:+ suffix = s2 +:+ suffix → s1 = s2.
Proof.
  intros Heq.
  apply (f_equal String.list_ascii_of_string) in Heq.
  rewrite !list_ascii_append in Heq. apply app_inv_tail in Heq.
  apply (f_equal String.string_of_list_ascii) in Heq.
  by rewrite !String.string_of_list_ascii_of_string in Heq.
Qed.

Lemma some_app {A : Type} (test : A → bool) (l1 l2 : list A) :
  some test (l1 ++ l2) = some test l1 || some test l2.
Proof.
  induction l1 as [|y l1 IH]; [done|]. simpl. by destruct (test y).
Qed.

Lemma count_permutation {A : Type} (test : A → bool) (l1 l2 : list A) :
  l1 ≡ₚ l2 → count test l1 = count test l2.
Proof.
  induction 1 as [|y l1 l2 _ IH|y z l|l1 l2 l3 _ IH1 _ IH2]; simpl;
    [done|by rewrite IH|lia|congruence].
Qed.

(** Two Boolean results that are [true] under the same condition agree. *)
Lemma bool_eq_iff (b1 b2 : bool) : (b1 = true ↔ b2 = true) → b1 = b2.
Proof.
  destruct b1, b2; intros [H1 H2]; try done.
  - symmetry. by apply H1.
  - by apply H2.
Qed.

(** ** Strict equality *)

Lemma SFeqb_finite (s1 s2 : bool) (m1 m2 : positive) (e1 e2 : Z) :
  SFeqb (S754_finite s1 m1 e1) (S754_finite s2 m2 e2) = true ↔
  s1 = s2 ∧ m1 = m2 ∧ e1 = e2.
Proof.
  unfold SFeqb, SFcompare.
  change (Pos.compare_cont Eq m1 m2) with (Pos.compare m1 m2).
  destruct (Z.compare_spec e1 e2) as [He|He|He],
    (Pos.compare_spec m1 m2) as [Hm|Hm|Hm], s1, s2; simpl;
    split; try discriminate; try (intros (? & ? & ?); lia); by subst.
Qed.

(** Two values strictly equal to a third are strictly equal to each other
    (NaN is strictly equal to nothing). *)
Lemma strict_equals_euclid (a b x : Value) :
  strict_equals a x = true → strict_equals b x = true →
  strict_equals a b = true.
Proof.
  destruct a as [| |a|a|a|a|a|a], x as [| |x|x|x|x|x|x]; try discriminate;
    destruct b as [| |b|b|b|b|b|b]; try discriminate; simpl; try done.
  - intros ->%Bool.eqb_prop ->%Bool.eqb_prop. by destruct x.
  - destruct a as [sa|sa| |sa ma ea], x as [sx|sx| |sx mx ex],
      b as [sb|sb| |sb mb eb];
      try (by repeat match goal with s : bool |- _ => destruct s end).
    intros (-> & -> & ->)%SFeqb_finite (-> & -> & ->)%SFeqb_finite.
    by apply SFeqb_finite.
  - intros ->%Z.eqb_eq ->%Z.eqb_eq. apply Z.eqb_refl.
  - intros ->%String.eqb_eq ->%String.eqb_eq. apply String.eqb_refl.
  - intros ->%Pos.eqb_eq ->%Pos.eqb_eq. apply Pos.eqb_refl.
  - intros ->%Pos.eqb_eq ->%Pos.eqb_eq. apply Pos.eqb_refl.
Qed.

(** ** More on [UnionType] *)

Lemma nameLoop_app (l1 l2 : list Type_.t) :
  ∀ typeName,
    UnionType.nameLoop typeName (l1 ++ l2) =
    UnionType.nameLoop (UnionType.nameLoop typeName l1) l2.
Proof. induction l1 as [|type l1 IH]; intros typeName; [done|]. apply IH. Qed.

(** The name the constructor builds, for every list of members: the names
    are joined with [" | "] after the empty names at the front are dropped. *)
Theorem union_name_characterised (types : list Type_.t) :
  UnionType.getTypeName (UnionType.new types) =
  join " | " (dropLeadingEmpty (map Type_.getTypeName types)).
Proof.
  induction types as [|first rest IH]; [done|].
  destruct (Type_.getTypeName first) as [|c name] eqn:Hfirst.
  - rewrite union_name_skips_unnamed by done.
    rewrite IH. simpl. by rewrite Hfirst.
  - rewrite union_name_join by (by rewrite Hfirst).
    simpl. by rewrite Hfirst.
Qed.

(** A union used as a member of a union accepts what its members would
    accept in its place; and a union of two lists accepts what the union of
    either list accepts. *)
Theorem union_check_flattens (l1 l2 l3 : list Type_.t) (x : Value) :
  UnionType.checkConformity
    (UnionType.new (l1 ++ UnionType.asType (UnionType.new l2) :: l3)) x =
  UnionType.checkConformity (UnionType.new (l1 ++ l2 ++ l3)) x ∧
  UnionType.checkConformity (UnionType.new (l1 ++ l2)) x =
  UnionType.checkConformity (UnionType.new l1) x ||
  UnionType.checkConformity (UnionType.new l2) x.
Proof.
  unfold UnionType.checkConformity. simpl UnionType.acceptableTypes.
  split; [|apply some_app].
  rewrite !some_app. simpl some. unfold UnionType.checkConformity.
  simpl UnionType.acceptableTypes.
  by destruct (some (λ type, Type_.checkConformity type x) l2).
Qed.

(** A union with a named first member, used as a member of a union, shows
    in the outer name as its members would in its place. *)
Theorem union_name_flattens (l1 l2 l3 : list Type_.t) :
  match l2 with
  | [] => False
  | first :: _ => Type_.getTypeName first ≠ ""
  end →
  UnionType.getTypeName
    (UnionType.new (l1 ++ UnionType.asType (UnionType.new l2) :: l3)) =
  UnionType.getTypeName (UnionType.new (l1 ++ l2 ++ l3)).
Proof.
  destruct l2 as [|first l2]; [done|]. intros Hfirst.
  assert (∀ typeName,
            UnionType.nameLoop typeName
              [UnionType.asType (UnionType.new (first :: l2))] =
            UnionType.nameLoop typeName (first :: l2)) as Hmember.
  { intros typeName. simpl UnionType.nameLoop.
    destruct (String.eqb_spec typeName "") as [->|Hne]; simpl negb; cbv iota.
    - done.
    - change ("" +:+ Type_.getTypeName first) with (Type_.getTypeName first).
      rewrite (nameLoop_join l2 (Type_.getTypeName first)) by done.
      rewrite (nameLoop_join l2 (_ +:+ Type_.getTypeName first)).
      + rewrite !append_assoc. by rewrite join_merge, join_cons.
      + intros Hempty. apply append_empty_inv in Hempty.
        by apply append_empty_inv in Hempty. }
  unfold UnionType.getTypeName, UnionType.new. simpl UnionType.typeName.
  rewrite (nameLoop_app l1 (first :: l2 ++ l3)).
  rewrite (nameLoop_app l1 (_ :: l3)).
  change (first :: l2 ++ l3) with ((first :: l2) ++ l3).
  rewrite (nameLoop_app (first :: l2) l3).
  rewrite <- Hmember. symmetry. apply (nameLoop_app [_] l3).
Qed.

Lemma union_name_flattens_witness :
  UnionType.getTypeName
    (UnionType.new ([STRING] ++ UnionType.asType
                      (UnionType.new [UNDEFINED; ANY]) :: [VOID])) =
  UnionType.getTypeName
    (UnionType.new ([STRING] ++ [UNDEFINED; ANY] ++ [VOID])).
Proof.
  apply (union_name_flattens [STRING] [UNDEFINED; ANY] [VOID]).
  discriminate.
Defined.

(** The order of the members does not matter to either check of a union. *)
Theorem union_checks_permutation (types types' : list Type_.t) (x : Value) :
  types ≡ₚ types' →
  UnionType.checkConformity (UnionType.new types) x =
    UnionType.checkConformity (UnionType.new types') x ∧
  UnionType.exhaustivelyCheckConformity (UnionType.new types) x =
    UnionType.exhaustivelyCheckConformity (UnionType.new types') x.
Proof.
  intros Hperm.
  apply (count_permutation (λ type, Type_.checkConformity type x)) in Hperm.
  split; apply bool_eq_iff.
  - unfold UnionType.checkConformity. simpl UnionType.acceptableTypes.
    rewrite !(some_true_count (λ type, Type_.checkConformity type x)).
    by rewrite Hperm.
  - unfold UnionType.exhaustivelyCheckConformity.
    simpl UnionType.acceptableTypes.
    rewrite !union_exhaustiveLoop_count. by rewrite Hperm.
Qed.

Lemma union_checks_permutation_witness :
  UnionType.checkConformity (UnionType.new [STRING; ANY]) VNull =
    UnionType.checkConformity (UnionType.new [ANY; STRING]) VNull ∧
  UnionType.exhaustivelyCheckConformity (UnionType.new [STRING; ANY]) VNull =
    UnionType.exhaustivelyCheckConformity (UnionType.new [ANY; STRING]) VNull.
Proof.
  apply (union_checks_permutation [STRING; ANY] [ANY; STRING] VNull).
  apply perm_swap.
Defined.

(** The exhaustive check of a union asks its members only for their plain
    check: members that agree on it, one by one, give the same answer, so an
    ambiguity inside a member is not seen. *)
Theorem union_exhaustive_plain_only (types types' : list Type_.t) (x : Value) :
  Forall2 (λ type type',
             Type_.checkConformity type x = Type_.checkConformity type' x)
          types types' →
  UnionType.exhaustivelyCheckConformity (UnionType.new types) x =
  UnionType.exhaustivelyCheckConformity (UnionType.new types') x.
Proof.
  intros Hagree. apply bool_eq_iff.
  unfold UnionType.exhaustivelyCheckConformity. simpl UnionType.acceptableTypes.
  rewrite !union_exhaustiveLoop_count.
  assert (count (λ type, Type_.checkConformity type x) types =
          count (λ type, Type_.checkConformity type x) types') as ->; [|done].
  induction Hagree as [|type type' rest rest' Hhead _ IH]; [done|].
  simpl. by rewrite Hhead, IH.
Qed.

Lemma union_exhaustive_plain_only_witness :
  UnionType.exhaustivelyCheckConformity
    (UnionType.new [UnionType.asType (UnionType.new [STRING; ANY])])
    (VString "s") =
  UnionType.exhaustivelyCheckConformity (UnionType.new [ANY]) (VString "s").
Proof.
  apply (union_exhaustive_plain_only
           [UnionType.asType (UnionType.new [STRING; ANY])] [ANY]
           (VString "s")).
  repeat constructor.
Defined.

(** ** More on [EnumType] *)

Lemma singleValue_check (v x : Value) :
  Type_.checkConformity (singleValue v) x = strict_equals v x.
Proof.
  unfold singleValue, EnumType.asType, EnumType.checkConformity.
  cbn [Type_.checkConformity EnumType.acceptableValues EnumType.new].
  rewrite elements_cons_Some. cbn [elements omap list_omap some].
  by destruct (strict_equals v x).
Qed.

Lemma enum_loop_as_union_loop (values : list Value) (x : Value) :
  ∀ once,
    EnumType.exhaustiveLoop once values x =
    UnionType.exhaustiveLoop once (map singleValue values) x.
Proof.
  induction values as [|v rest IH]; intros once; [done|].
  rewrite fmap_cons.
  cbn [EnumType.exhaustiveLoop UnionType.exhaustiveLoop].
  rewrite singleValue_check. by rewrite !IH.
Qed.

(** An enumeration over a list without empty slots answers both checks as
    the union of the enumerations of its single values does. *)
Theorem enum_as_union_of_values (values : list Value)
    (typeName : option string) (x : Value) :
  EnumType.checkConformity (EnumType.new (Some <$> values) typeName) x =
    UnionType.checkConformity (UnionType.new (map singleValue values)) x ∧
  EnumType.exhaustivelyCheckConformity
      (EnumType.new (Some <$> values) typeName) x =
    UnionType.exhaustivelyCheckConformity
      (UnionType.new (map singleValue values)) x.
Proof.
  split.
  - unfold EnumType.checkConformity, UnionType.checkConformity.
    cbn [EnumType.acceptableValues EnumType.new
         UnionType.acceptableTypes UnionType.new].
    rewrite elements_dense.
    induction values as [|v rest IH]; [done|].
    rewrite fmap_cons. cbn [some]. rewrite singleValue_check.
    by rewrite IH.
  - unfold EnumType.exhaustivelyCheckConformity,
      UnionType.exhaustivelyCheckConformity.
    cbn [EnumType.acceptableValues EnumType.new
         UnionType.acceptableTypes UnionType.new].
    rewrite iterated_dense. apply enum_loop_as_union_loop.
Qed.

(** The order of the slots of the list, empty ones included, does not matter
    to either check of an enumeration. *)
Theorem enum_checks_permutation (values values' : list (option Value))
    (typeName typeName' : option string) (x : Value) :
  values ≡ₚ values' →
  EnumType.checkConformity (EnumType.new values typeName) x =
    EnumType.checkConformity (EnumType.new values' typeName') x ∧
  EnumType.exhaustivelyCheckConformity (EnumType.new values typeName) x =
    EnumType.exhaustivelyCheckConformity (EnumType.new values' typeName') x.
Proof.
  intros Hperm.
  assert (elements values ≡ₚ elements values') as Helements
    by (unfold elements; by rewrite Hperm).
  assert (iterated values ≡ₚ iterated values') as Hiterated
    by (unfold iterated; by rewrite Hperm).
  apply (count_permutation (λ value, strict_equals value x)) in Helements.
  apply (count_permutation (λ value, strict_equals value x)) in Hiterated.
  split; apply bool_eq_iff.
  - unfold EnumType.checkConformity. simpl EnumType.acceptableValues.
    rewrite !(some_true_count (λ value, strict_equals value x)).
    by rewrite Helements.
  - rewrite !enum_exhaustive_count. simpl EnumType.acceptableValues.
    by rewrite Hiterated.
Qed.

Lemma enum_checks_permutation_witness :
  EnumType.checkConformity (EnumType.new [Some VNull; None] None) VUndefined =
    EnumType.checkConformity
      (EnumType.new [None; Some VNull] (Some "nothing")) VUndefined ∧
  EnumType.exhaustivelyCheckConformity
      (EnumType.new [Some VNull; None] None) VUndefined =
    EnumType.exhaustivelyCheckConformity
      (EnumType.new [None; Some VNull] (Some "nothing")) VUndefined.
Proof.
  apply (enum_checks_permutation [Some VNull; None] [None; Some VNull]
           None (Some "nothing") VUndefined).
  apply perm_swap.
Defined.

Lemma count_zero {A : Type} (test : A → bool) (l : list A) :
  (∀ i y, l !! i = Some y → test y = false) → count test l = 0.
Proof.
  induction l as [|y l IH]; intros Hall; [done|]. simpl.
  rewrite (Hall 0 y) by done. rewrite IH; [done|].
  intros i z Hz. by apply (Hall (S i)).
Qed.

Lemma pairwise_distinct_count (values : list Value) (x : Value) :
  pairwise_distinct values →
  count (λ value, strict_equals value x) values ≤ 1.
Proof.
  induction values as [|v rest IH]; intros Hdistinct; simpl; [lia|].
  assert (pairwise_distinct rest) as Hrest.
  { intros i j a b Hij Ha Hb.
    apply (Hdistinct (S i) (S j)); [lia|done|done]. }
  destruct (strict_equals v x) eqn:Hv; [|by apply IH].
  rewrite (count_zero (λ value, strict_equals value x) rest); [lia|].
  intros i w Hw. simpl.
  destruct (strict_equals w x) eqn:Hwx; [|done].
  assert (strict_equals v w = true) as Hvw
    by by apply (strict_equals_euclid v w x).
  rewrite (Hdistinct 0 (S i) v w) in Hvw; [done|lia|done|done].
Qed.

(** When the list has no empty slot and no two of its values are strictly
    equal, the exhaustive check of an enumeration is its plain check, on
    every input. *)
Theorem enum_distinct_exhaustive_is_check (values : list Value)
    (typeName : option string) (x : Value) :
  pairwise_distinct values →
  EnumType.exhaustivelyCheckConformity
    (EnumType.new (Some <$> values) typeName) x =
  EnumType.checkConformity (EnumType.new (Some <$> values) typeName) x.
Proof.
  intros Hdistinct. apply (pairwise_distinct_count values x) in Hdistinct.
  apply bool_eq_iff.
  rewrite enum_exhaustive_count. unfold EnumType.checkConformity.
  cbn [EnumType.acceptableValues EnumType.new].
  rewrite iterated_dense, elements_dense.
  rewrite (some_true_count (λ value, strict_equals value x)).
  lia.
Qed.

Lemma enum_distinct_exhaustive_is_check_witness :
  EnumType.exhaustivelyCheckConformity
    (EnumType.new (Some <$> [VString "a"; VString "b"]) None) (VString "b") =
  EnumType.checkConformity
    (EnumType.new (Some <$> [VString "a"; VString "b"]) None) (VString "b").
Proof.
  apply (enum_distinct_exhaustive_is_check [VString "a"; VString "b"] None
           (VString "b")).
  intros [|[|i]] [|[|j]] v w Hij Hv Hw; simpl in Hv, Hw; by simplify_eq.
Defined.

(** ** More on [OptionalType] *)

Lemma append_nil_l (s : string) : "" +:+ s = s.
Proof. reflexivity. Qed.

Lemma parenthesised_inj (s1 s2 : string) :
  "(" +:+ s1 +:+ ")" = "(" +:+ s2 +:+ ")" → s1 = s2.
Proof.
  rewrite !append_cons, !append_nil_l. intros Heq.
  injection Heq as Heq. by apply append_cancel_r in Heq.
Qed.

Lemma parenthesised_has_space (s : string) :
  has_space s → has_space ("(" +:+ s +:+ ")").
Proof. intros Hs. apply has_space_append. right. apply has_space_append. by left. Qed.

(** Optional descriptors with the same name wrap descriptors with the same
    name: the parentheses keep the names apart. *)
Theorem optional_name_injective (T1 T2 : Type_.t) :
  OptionalType.getTypeName (OptionalType.new T1) =
    OptionalType.getTypeName (OptionalType.new T2) →
  Type_.getTypeName T1 = Type_.getTypeName T2.
Proof.
  unfold OptionalType.getTypeName, OptionalType.new.
  simpl OptionalType.typeName.
  destruct (includes (Type_.getTypeName T1) " ") eqn:H1,
    (includes (Type_.getTypeName T2) " ") eqn:H2;
    intros Heq%append_cancel_r.
  - by apply parenthesised_inj.
  - apply includes_space, parenthesised_has_space in H1.
    rewrite Heq in H1. apply includes_space in H1. congruence.
  - apply includes_space, parenthesised_has_space in H2.
    rewrite <- Heq in H2. apply includes_space in H2. congruence.
  - done.
Qed.

Lemma optional_name_injective_witness :
  Type_.getTypeName (leaf "B C" isString) =
  Type_.getTypeName (leaf "B C" anything).
Proof.
  apply (optional_name_injective (leaf "B C" isString) (leaf "B C" anything)).
  reflexivity.
Defined.

(** The optional form of a union of two or more members, the first of which
    has a name, is named by the joined names in parentheses and ["?"]. *)
Theorem optional_union_name (first second : Type_.t) (rest : list Type_.t) :
  Type_.getTypeName first ≠ "" →
  OptionalType.getTypeName
    (OptionalType.new
       (UnionType.asType (UnionType.new (first :: second :: rest)))) =
  "(" +:+ join " | " (map Type_.getTypeName (first :: second :: rest)) +:+ ")?".
Proof.
  intros Hfirst.
  pose proof (union_name_join (first :: second :: rest) Hfirst) as Hname.
  change (UnionType.getTypeName (UnionType.new (first :: second :: rest)))
    with (Type_.getTypeName
            (UnionType.asType (UnionType.new (first :: second :: rest))))
    in Hname.
  unfold OptionalType.getTypeName, OptionalType.new.
  cbn [OptionalType.typeName]. rewrite Hname.
  assert (includes (join " | " (map Type_.getTypeName
                                  (first :: second :: rest))) " " = true)
    as ->.
  { apply includes_space. rewrite !fmap_cons, join_cons.
    apply has_space_append. right. apply has_space_append. left.
    by left. }
  by rewrite !append_assoc.
Qed.

Lemma optional_union_name_witness :
  OptionalType.getTypeName
    (OptionalType.new (UnionType.asType (UnionType.new [STRING; UNDEFINED])))
  = "(" +:+ join " | " (map Type_.getTypeName [STRING; UNDEFINED]) +:+ ")?".
Proof.
  apply (optional_union_name STRING UNDEFINED []). discriminate.
Defined.

(** ** More on [MalformedObjectError] *)

Lemma append_nil_r (s : string) : s +:+ "" = s.
Proof. induction s as [|c s IH]; [done|]. by rewrite append_cons, IH. Qed.

Lemma append_cancel_l (prefix s1 s2 : string) :
  prefix +:+ s1 = prefix +:+ s2 → s1 = s2.
Proof.
  induction prefix as [|c prefix IH]; [done|].
  rewrite !append_cons. intros Heq. injection Heq as Heq. by apply IH.
Qed.

(** The loop of the constructor joins the elements onto what it has. *)
Lemma readablePath_join (items : list string) :
  ∀ readablePath,
    fold_left (λ readablePath pathItem, readablePath +:+ "." +:+ pathItem)
              items readablePath =
    join "." (readablePath :: items).
Proof.
  induction items as [|item rest IH]; intros readablePath; [done|].
  simpl fold_left. rewrite IH. apply join_merge.
Qed.

(** A longer array spells a longer readable path. *)
Lemma join_extend_inv (items more : list string) :
  ∀ head,
    join "." (head :: items) = join "." (head :: items ++ more) → more = [].
Proof.
  induction items as [|item rest IH]; intros head Heq.
  - destruct more as [|item more]; [done|]. exfalso.
    rewrite app_nil_l, join_cons in Heq. simpl join in Heq.
    rewrite <- (append_nil_r head) in Heq at 1.
    apply append_cancel_l in Heq. discriminate Heq.
  - rewrite <- app_comm_cons, !join_cons in Heq.
    apply append_cancel_l, append_cancel_l in Heq. by apply (IH item).
Qed.

(** Construction succeeds on every array of the store and leaves the store
    as it is; the record holds the very array it was given, and its readable
    path is the star and the elements of that array joined by dots. *)
Theorem error_constructed (infer : Value → Type_.t) (path : ref)
    (expectedType : Type_.t) (actualValue : Value)
    (actualType : option Type_.t) (items : list string) (σ : Arrays.Store) :
  σ !! path = Some items →
  ∃ e,
    MalformedObjectError.new infer path expectedType actualValue actualType σ
      = Some (e, σ) ∧
    MalformedObjectError.path e = path ∧
    MalformedObjectError.readablePath e = join "." ("*" :: items) ∧
    consistent σ e.
Proof.
  intros Hpath.
  unfold MalformedObjectError.new, Arrays.bind, Arrays.read, Arrays.ret.
  rewrite Hpath. eexists. split; [reflexivity|]. simpl.
  rewrite readablePath_join. split; [done|]. split; [done|].
  exists items. by simpl.
Qed.

Lemma error_constructed_witness :
  ∃ e,
    MalformedObjectError.new sampleInfer 1%positive STRING VUndefined None
      sampleStore = Some (e, sampleStore) ∧
    MalformedObjectError.path e = 1%positive ∧
    MalformedObjectError.readablePath e = join "." ["*"; "b"] ∧
    consistent sampleStore e.
Proof.
  apply (error_constructed sampleInfer 1%positive STRING VUndefined None
           ["b"] sampleStore).
  reflexivity.
Defined.

(** The constructor does not copy its array: elements pushed onto it
    afterwards show in the record's path, while the readable path stays as
    it was computed and no longer matches. *)
Theorem error_path_is_shared (infer : Value → Type_.t) (path : ref)
    (expectedType : Type_.t) (actualValue : Value)
    (actualType : option Type_.t) (items more : list string)
    (σ : Arrays.Store) :
  σ !! path = Some items → more ≠ [] →
  ∃ e σ',
    MalformedObjectError.new infer path expectedType actualValue actualType σ
      = Some (e, σ) ∧
    Arrays.push path more σ = Some ((), σ') ∧
    σ' !! MalformedObjectError.path e = Some (items ++ more) ∧
    MalformedObjectError.readablePath e = join "." ("*" :: items) ∧
    ¬ consistent σ' e.
Proof.
  intros Hpath Hmore.
  assert (∃ e,
            MalformedObjectError.new infer path expectedType actualValue
              actualType σ = Some (e, σ) ∧
            MalformedObjectError.path e = path ∧
            MalformedObjectError.readablePath e = join "." ("*" :: items))
    as (e & Hnew & Hsame & Hreadable).
  { unfold MalformedObjectError.new, Arrays.bind, Arrays.read, Arrays.ret.
    rewrite Hpath. eexists. split; [reflexivity|]. simpl.
    by rewrite readablePath_join. }
  exists e, (<[path := items ++ more]> σ).
  unfold Arrays.Store in *.
  assert ((<[path := items ++ more]> σ) !! MalformedObjectError.path e =
          Some (items ++ more)) as Hlookup
    by (rewrite Hsame; apply lookup_insert_eq).
  split; [done|].
  split; [unfold Arrays.push, Arrays.Store; by rewrite Hpath|].
  split; [done|]. split; [done|].
  intros (items' & Hitems' & Hreadable').
  pose proof (eq_trans (eq_sym Hitems') Hlookup) as Hsame'.
  injection Hsame' as ->.
  rewrite Hreadable in Hreadable'. by apply join_extend_inv in Hreadable'.
Qed.

Lemma error_path_is_shared_witness :
  ∃ e σ',
    MalformedObjectError.new sampleInfer 1%positive STRING VUndefined None
      sampleStore = Some (e, sampleStore) ∧
    Arrays.push 1%positive ["c"] sampleStore = Some ((), σ') ∧
    σ' !! MalformedObjectError.path e = Some (["b"] ++ ["c"]) ∧
    MalformedObjectError.readablePath e = join "." ("*" :: ["b"]) ∧
    ¬ consistent σ' e.
Proof.
  apply (error_path_is_shared sampleInfer 1%positive STRING VUndefined None
           ["b"] ["c"] sampleStore).
  - reflexivity.
  - discriminate.
Defined.

(** [prependPath] returns an error whose readable path matches its array,
    and every error whose readable path matched its array before the call
    still has it match afterwards. *)
Theorem prependPath_keeps_consistency (infer : Value → Type_.t)
    (this : MalformedObjectError.t) (segments thisPath : list string)
    (σ : Arrays.Store) :
  σ !! MalformedObjectError.path this = Some thisPath →
  ∃ result σ',
    MalformedObjectError.prependPath infer this segments σ = Some (result, σ') ∧
    MalformedObjectError.readablePath result =
      join "." ("*" :: segments ++ thisPath) ∧
    consistent σ' result ∧
    ∀ e, consistent σ e → consistent σ' e.
Proof.
  intros Hpath.
  destruct (prependPath_spec infer this segments thisPath σ Hpath)
    as (result & Hrun & Hnew & Hreadable & _).
  rewrite readablePath_join in Hreadable.
  exists result. eexists. split; [exact Hrun|]. split; [exact Hreadable|].
  unfold consistent, Arrays.Store in *. split.
  - exists (segments ++ thisPath). split; [apply lookup_insert_eq|done].
  - intros e (items & Hitems & He). exists items. split; [|done].
    rewrite lookup_insert_ne; [done|].
    intros Heq. apply Hnew. rewrite Heq. apply elem_of_dom. by eexists.
Qed.

Lemma prependPath_keeps_consistency_witness :
  ∃ result σ',
    MalformedObjectError.prependPath sampleInfer sampleError ["a"] sampleStore
      = Some (result, σ') ∧
    MalformedObjectError.readablePath result = join "." ("*" :: ["a"] ++ ["b"]) ∧
    consistent σ' result ∧
    ∀ e, consistent sampleStore e → consistent σ' e.
Proof.
  apply (prependPath_keeps_consistency sampleInfer sampleError ["a"] ["b"]
           sampleStore).
  reflexivity.
Defined.

(** Prepending in two steps gives what prepending the two lists of segments
    at once gives, in every field but the identity of the new array; the
    arrays of the original and of the intermediate error are left as they
    were. *)
Theorem prependPath_composes (infer : Value → Type_.t)
    (this : MalformedObjectError.t) (inner outer thisPath : list string)
    (σ : Arrays.Store) :
  σ !! MalformedObjectError.path this = Some thisPath →
  ∃ first σ1 second σ2 direct σd,
    MalformedObjectError.prependPath infer this inner σ = Some (first, σ1) ∧
    MalformedObjectError.prependPath infer first outer σ1 = Some (second, σ2) ∧
    MalformedObjectError.prependPath infer this (outer ++ inner) σ =
      Some (direct, σd) ∧
    σ2 !! MalformedObjectError.path second = Some (outer ++ inner ++ thisPath) ∧
    σd !! MalformedObjectError.path direct = Some (outer ++ inner ++ thisPath) ∧
    MalformedObjectError.readablePath second =
      MalformedObjectError.readablePath direct ∧
    MalformedObjectError.expectedType second =
      MalformedObjectError.expectedType direct ∧
    MalformedObjectError.actualValue second =
      MalformedObjectError.actualValue direct ∧
    MalformedObjectError.actualType second =
      MalformedObjectError.actualType direct ∧
    σ2 !! MalformedObjectError.path first = Some (inner ++ thisPath) ∧
    σ2 !! MalformedObjectError.path this = Some thisPath.
Proof.
  intros Hpath.
  destruct (prependPath_spec infer this inner thisPath σ Hpath)
    as (first & Hrun1 & Hnew1 & _ & Hexpected1 & Hvalue1 & _).
  unfold Arrays.Store in *.
  assert (<[MalformedObjectError.path first := inner ++ thisPath]> σ
            !! MalformedObjectError.path first = Some (inner ++ thisPath))
    as Hpath1 by apply lookup_insert_eq.
  destruct (prependPath_spec infer first outer (inner ++ thisPath) _ Hpath1)
    as (second & Hrun2 & Hnew2 & Hreadable2 & Hexpected2 & Hvalue2 & Htype2).
  destruct (prependPath_spec infer this (outer ++ inner) thisPath σ Hpath)
    as (direct & Hrund & _ & Hreadabled & Hexpectedd & Hvalued & Htyped).
  unfold Arrays.Store in *.
  assert (MalformedObjectError.path first ≠ MalformedObjectError.path this)
    as Hne1.
  { intros Heq. apply Hnew1. rewrite Heq. apply elem_of_dom. by eexists. }
  assert (MalformedObjectError.path second ≠ MalformedObjectError.path first)
    as Hne2.
  { intros Heq. apply Hnew2. rewrite Heq. apply elem_of_dom. by eexists. }
  assert (MalformedObjectError.path second ≠ MalformedObjectError.path this)
    as Hne3.
  { intros Heq. apply Hnew2. rewrite Heq. apply elem_of_dom.
    rewrite lookup_insert_ne by done. by eexists. }
  exists first. eexists. exists second. eexists. exists direct. eexists.
  split; [exact Hrun1|]. split; [exact Hrun2|]. split; [exact Hrund|].
  split; [apply lookup_insert_eq|].
  split; [rewrite lookup_insert_eq; by rewrite app_assoc|].
  split; [rewrite Hreadable2, Hreadabled; by rewrite app_assoc|].
  split; [congruence|]. split; [congruence|]. split; [congruence|].
  split; [by rewrite lookup_insert_ne|].
  by rewrite !lookup_insert_ne.
Qed.

Lemma prependPath_composes_witness :
  ∃ first σ1 second σ2 direct σd,
    MalformedObjectError.prependPath sampleInfer sampleError ["a"] sampleStore
      = Some (first, σ1) ∧
    MalformedObjectError.prependPath sampleInfer first ["root"] σ1 =
      Some (second, σ2) ∧
    MalformedObjectError.prependPath sampleInfer sampleError
      (["root"] ++ ["a"]) sampleStore = Some (direct, σd) ∧
    σ2 !! MalformedObjectError.path second = Some (["root"] ++ ["a"] ++ ["b"]) ∧
    σd !! MalformedObjectError.path direct = Some (["root"] ++ ["a"] ++ ["b"]) ∧
    MalformedObjectError.readablePath second =
      MalformedObjectError.readablePath direct ∧
    MalformedObjectError.expectedType second =
      MalformedObjectError.expectedType direct ∧
    MalformedObjectError.actualValue second =
      MalformedObjectError.actualValue direct ∧
    MalformedObjectError.actualType second =
      MalformedObjectError.actualType direct ∧
    σ2 !! MalformedObjectError.path first = Some (["a"] ++ ["b"]) ∧
    σ2 !! MalformedObjectError.path sampleError = Some ["b"].
Proof.
  apply (prependPath_composes sampleInfer sampleError ["a"] ["root"] ["b"]
           sampleStore).
  reflexivity.
Defined.
